(** * dwarf_query: type descriptors, aggregate definitions and the catalog

    A shallow embedding of [panda/plugins/syscalls_logger/dwarf_query.h]:
    the [DataType] tag set, the [ReadableDataType] descriptor with its
    constructors and [get_arr_size], [StructDef], the two [operator<<] that
    print them, and the two global tables [struct_hashtable] and
    [func_hashtable].  The header only declares
    [read_member] and [load_json]; their behaviour is modelled from the
    specification and marked as such. *)

From Stdlib Require Import ZArith Lia Sorted Ascii DecimalString DecimalN.
From stdpp Require Import gmap strings list.

Local Open Scope string_scope.
Local Open Scope Z_scope.

(** ** Machine integers

    [unsigned] and [int] are 32 bits wide on every target the plugin is built
    for.  Values are kept in [Z]; the range of [unsigned] is a predicate and
    the conversion to [int] writes the wrap-around out. *)

Definition UINT_MAX : Z := 2 ^ 32 - 1.
Definition INT_MAX : Z := 2 ^ 31 - 1.
Definition INT_MIN : Z := - 2 ^ 31.

Definition is_unsigned (z : Z) : Prop := 0 <= z <= UINT_MAX.

(** Conversion of an [unsigned] value to [int] (the implicit conversion at a
    [return] in a function whose result type is [int]): values above
    [INT_MAX] wrap to the negative half. *)
Definition to_int (z : Z) : Z := (z + 2 ^ 31) mod 2 ^ 32 - 2 ^ 31.

(** ** Outcomes of a call

    A call either returns, or stops in a failed [assert], or evaluates an
    integer division whose divisor is zero (undefined behaviour). *)

Inductive outcome (A : Type) : Type :=
  | Returned (a : A)
  | AssertionFailure
  | DivisionByZero.
Arguments Returned {A} a.
Arguments AssertionFailure {A}.
Arguments DivisionByZero {A}.

#[global] Instance outcome_ret : MRet outcome := fun A a => Returned a.
#[global] Instance outcome_bind : MBind outcome := fun A B k m =>
  match m with
  | Returned a => k a
  | AssertionFailure => AssertionFailure
  | DivisionByZero => DivisionByZero
  end.

(** [assert(c)] *)
Definition assert (c : bool) : outcome unit :=
  if c then Returned tt else AssertionFailure.

(** [a % b] and [a / b] on [unsigned] operands. *)
Definition umod (a b : Z) : outcome Z :=
  if b =? 0 then DivisionByZero else Returned (a mod b).
Definition udiv (a b : Z) : outcome Z :=
  if b =? 0 then DivisionByZero else Returned (a / b).

(** ** Struct members *)

(** The enumeration is unscoped and its underlying type is not fixed, so its
    values are those of the smallest bit-field that holds the enumerators 0
    to 9, which are 0 to 15: a [DataType] object holds one of the ten
    enumerators or one of the six values 10 to 15 that no enumerator
    names. *)
Inductive unnamed : Type :=
  | U10
  | U11
  | U12
  | U13
  | U14
  | U15.

#[global] Instance unnamed_eq_dec : EqDecision unnamed.
Proof. solve_decision. Defined.

(** [enum DataType]: categorization for primitive types. *)
Inductive DataType : Type :=
  | VOID
  | BOOL
  | CHAR
  | INT
  | FLOAT
  | STRUCT
  | FUNC
  | ARRAY
  | UNION
  | ENUM
  | UNNAMED (u : unnamed).

#[global] Instance DataType_eq_dec : EqDecision DataType.
Proof. solve_decision. Defined.

(** The enumerators in declaration order, and the value each one has. *)
Definition DataType_all : list DataType :=
  [VOID; BOOL; CHAR; INT; FLOAT; STRUCT; FUNC; ARRAY; UNION; ENUM].

Definition unnamed_value (u : unnamed) : Z :=
  match u with
  | U10 => 10 | U11 => 11 | U12 => 12 | U13 => 13 | U14 => 14 | U15 => 15
  end.

Definition DataType_value (t : DataType) : Z :=
  match t with
  | VOID => 0 | BOOL => 1 | CHAR => 2 | INT => 3 | FLOAT => 4
  | STRUCT => 5 | FUNC => 6 | ARRAY => 7 | UNION => 8 | ENUM => 9
  | UNNAMED u => unnamed_value u
  end.

(** The [switch] of [operator<<] for [ReadableDataType]: the printed name of
    a tag.  Its [default] branch is the one of the unnamed values. *)
Definition DataType_name (t : DataType) : string :=
  match t with
  | VOID => "void"
  | BOOL => "bool"
  | CHAR => "char"
  | INT => "int"
  | FLOAT => "float"
  | STRUCT => "struct"
  | FUNC => "function"
  | ARRAY => "array"
  | UNION => "union"
  | ENUM => "enum"
  | UNNAMED _ => "{unknown}"
  end.

(** [class ReadableDataType]: information to read a primitive type. *)
Record ReadableDataType : Type := {
  (* core fields *)
  name : string;
  size_bytes : Z;
  offset_bytes : Z;
  type : DataType;
  is_ptr : bool;
  is_double_ptr : bool;
  is_le : bool;
  is_signed : bool;
  is_valid : bool;
  (* pointer-specific fields *)
  ptr_trgt_name : string;
  (* array-specific fields *)
  arr_member_name : string;
  arr_member_type : DataType;
  arr_member_size_bytes : Z
}.

Definition wf_ReadableDataType (rdt : ReadableDataType) : Prop :=
  is_unsigned (size_bytes rdt) /\
  is_unsigned (offset_bytes rdt) /\
  is_unsigned (arr_member_size_bytes rdt).

(** *** Constructors

    A constructor runs on the storage of the object, [this], whose content
    before construction is arbitrary.  A member named in the mem-initializer
    list receives the given value; a [bool] member that is not named there is
    default-initialized, that is, keeps what the storage held. *)

(** Pointer constructor. *)
Definition ReadableDataType_pointer_ctor
    (this : ReadableDataType) (ptr_name dst_name : string) : ReadableDataType :=
  {| name := ptr_name;
     size_bytes := 0;
     offset_bytes := 0;
     type := VOID;
     is_ptr := false;
     is_double_ptr := false;
     is_le := true;
     is_signed := false;
     is_valid := is_valid this;
     ptr_trgt_name := dst_name;
     arr_member_name := "{none}";
     arr_member_type := VOID;
     arr_member_size_bytes := 0 |}.

(** Named type constructor: delegates to the pointer constructor. *)
Definition ReadableDataType_named_ctor
    (this : ReadableDataType) (type_name : string) : ReadableDataType :=
  ReadableDataType_pointer_ctor this type_name "{none}".

(** No-args constructor: delegates to the named type constructor. *)
Definition ReadableDataType_noargs_ctor (this : ReadableDataType) : ReadableDataType :=
  ReadableDataType_named_ctor this "{unknown}".

(** *** [get_arr_size]

    Get array size, returns -1 if type is not an array. *)
Definition get_arr_size (rdt : ReadableDataType) : outcome Z :=
  match type rdt with
  | ARRAY =>
      if negb (size_bytes rdt =? 0) then
        r ← umod (size_bytes rdt) (arr_member_size_bytes rdt);
        assert (r =? 0);;
        q ← udiv (size_bytes rdt) (arr_member_size_bytes rdt);
        mret (to_int q)
      else Returned 0
  | _ => Returned (-1)
  end.

(** ** Struct *)

Module StructDef.

Record t : Type := {
  name : string;
  size_bytes : Z;
  members : list ReadableDataType
}.

(** [StructDef(const std::string& name_in)] *)
Definition ctor (name_in : string) : t :=
  {| name := name_in; size_bytes := 0; members := [] |}.

(** [StructDef()] *)
Definition ctor_noargs : t := ctor "{unknown}".

End StructDef.

(** ** Globals *)

(** Strings the JSON values are compared with. *)
Definition base_str : string := "base".
Definition little_str : string := "little".
Definition ptr_str : string := "pointer".
Definition void_str : string := "void".
Definition bool_str : string := "bool".
Definition char_str : string := "char".
Definition int_str : string := "int".
Definition float_str : string := "float".
Definition double_str : string := "double".
Definition struct_str : string := "struct".
Definition func_str : string := "function".
Definition array_str : string := "array".
Definition bitfield_str : string := "bitfield".
Definition enum_str : string := "enum".
Definition union_str : string := "union".

(** *** [std::map<unsigned, V>]

    The ordered associative container behind [func_hashtable]: its content in
    iteration order, which is the order of the keys, with the operations of
    the container on that representation. *)

Module StdMap.
Section Ops.
Context {V : Type}.

Definition t : Type := list (Z * V).

Definition keys (m : t) : list Z := map fst m.

(** [m.find(k)] *)
Fixpoint find (k : Z) (m : t) : option V :=
  match m with
  | [] => None
  | (k', v') :: m' =>
      if k <? k' then None
      else if k =? k' then Some v'
      else find k m'
  end.

(** [m.insert({k, v})]: no effect when the key is present. *)
Fixpoint insert (k : Z) (v : V) (m : t) : t :=
  match m with
  | [] => [(k, v)]
  | (k', v') :: m' =>
      if k <? k' then (k, v) :: (k', v') :: m'
      else if k =? k' then (k', v') :: m'
      else (k', v') :: insert k v m'
  end.

(** [m[k] = v]: the value of a present key is replaced. *)
Fixpoint assign (k : Z) (v : V) (m : t) : t :=
  match m with
  | [] => [(k, v)]
  | (k', v') :: m' =>
      if k <? k' then (k, v) :: (k', v') :: m'
      else if k =? k' then (k, v) :: m'
      else (k', v') :: assign k v m'
  end.

(** [m.erase(k)] *)
Fixpoint erase (k : Z) (m : t) : t :=
  match m with
  | [] => []
  | (k', v') :: m' =>
      if k <? k' then (k', v') :: m'
      else if k =? k' then m'
      else (k', v') :: erase k m'
  end.

(** The entry before [m.upper_bound(a)]: the one with the greatest key that
    is at most [a], if there is one. *)
Fixpoint nearest_below (a : Z) (m : t) : option (Z * V) :=
  match m with
  | [] => None
  | (k', v') :: m' =>
      if a <? k' then None
      else match nearest_below a m' with
           | Some e => Some e
           | None => Some (k', v')
           end
  end.

(** The maps a program can build: the empty one, and what the operations
    make of a map it already has. *)
Inductive reachable : t -> Prop :=
  | reachable_empty : reachable []
  | reachable_insert k v m : reachable m -> reachable (insert k v m)
  | reachable_assign k v m : reachable m -> reachable (assign k v m)
  | reachable_erase k m : reachable m -> reachable (erase k m).

End Ops.
Arguments t V : clear implicits.
End StdMap.

(** *** Runtime data: the catalog *)

Record Catalog : Type := {
  struct_hashtable : gmap string StructDef.t;
  func_hashtable : StdMap.t string
}.


(** ** Schema loader ([load_json])

    The header declares [load_json]; its body is in a source file that is
    not part of this development. *)

(** Modelled from the spec: the schema document of section 6, as far as the
    top-level entries go.  An entry carries a kind tag, a name and a size;
    a struct or union entry carries its ordered member list, each member with
    its declared offset and a nested type reference; a function entry carries
    its entry address.  The nested type reference is kept abstract
    ([TypeRef]). *)
Record MemberDecl (TypeRef : Type) : Type := {
  member_offset : Z;
  member_type : TypeRef
}.
Arguments member_offset {TypeRef} _.
Arguments member_type {TypeRef} _.

Record Entry (TypeRef : Type) : Type := {
  entry_kind : string;
  entry_name : string;
  entry_size : Z;
  entry_members : list (MemberDecl TypeRef);
  entry_address : Z
}.
Arguments entry_kind {TypeRef} _.
Arguments entry_name {TypeRef} _.
Arguments entry_size {TypeRef} _.
Arguments entry_members {TypeRef} _.
Arguments entry_address {TypeRef} _.

Section Loader.
Context {TypeRef : Type}.

(** Modelled from the spec: the body of [load_json] is missing; this is the
    resolution of a nested type reference into a Type Descriptor (section
    4.1, steps 1 to 3, 5 and 6), taken as given. *)
Variable resolve_type : TypeRef -> ReadableDataType.

(** [rdt.offset_bytes = offset] *)
Definition set_offset_bytes (rdt : ReadableDataType) (offset : Z) : ReadableDataType :=
  {| name := name rdt;
     size_bytes := size_bytes rdt;
     offset_bytes := offset;
     type := type rdt;
     is_ptr := is_ptr rdt;
     is_double_ptr := is_double_ptr rdt;
     is_le := is_le rdt;
     is_signed := is_signed rdt;
     is_valid := is_valid rdt;
     ptr_trgt_name := ptr_trgt_name rdt;
     arr_member_name := arr_member_name rdt;
     arr_member_type := arr_member_type rdt;
     arr_member_size_bytes := arr_member_size_bytes rdt |}.

(** [rdt.is_valid = valid] *)
Definition set_is_valid (rdt : ReadableDataType) (valid : bool) : ReadableDataType :=
  {| name := name rdt;
     size_bytes := size_bytes rdt;
     offset_bytes := offset_bytes rdt;
     type := type rdt;
     is_ptr := is_ptr rdt;
     is_double_ptr := is_double_ptr rdt;
     is_le := is_le rdt;
     is_signed := is_signed rdt;
     is_valid := valid;
     ptr_trgt_name := ptr_trgt_name rdt;
     arr_member_name := arr_member_name rdt;
     arr_member_type := arr_member_type rdt;
     arr_member_size_bytes := arr_member_size_bytes rdt |}.

(** Modelled from the spec: the body of [load_json] is missing; section 4.1,
    step 4: resolve the member's own Type Descriptor and set [offset_bytes]
    from the declared member offset.  The offset is validated against the
    declared size of the aggregate (section 3: each offset must be below
    [size_bytes]); by the error policy of section 4.1 a member that fails is
    not dropped and does not stop the load: its descriptor is marked
    [is_valid = false]. *)
Definition load_member (size : Z) (d : MemberDecl TypeRef) : ReadableDataType :=
  let rdt := set_offset_bytes (resolve_type (member_type d)) (member_offset d) in
  if member_offset d <? size then rdt else set_is_valid rdt false.

(** Modelled from the spec: the body of [load_json] is missing; section 4.1,
    step 4: build an Aggregate Definition from a struct or union entry,
    iterating the declared members in document order. *)
Definition load_struct (e : Entry TypeRef) : StructDef.t :=
  {| StructDef.name := entry_name e;
     StructDef.size_bytes := entry_size e;
     StructDef.members := map (load_member (entry_size e)) (entry_members e) |}.


(** Modelled from the spec: the body of [load_json] is missing; section 4.1,
    step 7: the finished Aggregate Definition goes into the catalog under
    its name, a function entry into the function-address mapping; entries of
    the other kinds are reached through type references only. *)
Definition load_entry (c : Catalog) (e : Entry TypeRef) : Catalog :=
  if bool_decide (entry_kind e = struct_str) || bool_decide (entry_kind e = union_str) then
    {| struct_hashtable := <[entry_name e := load_struct e]> (struct_hashtable c);
       func_hashtable := func_hashtable c |}
  else if bool_decide (entry_kind e = func_str) then
    {| struct_hashtable := struct_hashtable c;
       func_hashtable := StdMap.assign (entry_address e) (entry_name e) (func_hashtable c) |}
  else c.

(** Modelled from the spec: the body of [load_json] is missing; [load] of
    section 4.1 over the root collection of the document. *)
Definition load_json (root : list (Entry TypeRef)) (c : Catalog) : Catalog :=
  foldl load_entry c root.

End Loader.

(** ** Memory decoder ([read_member])

    The header declares
    [std::pair<bool, PrimitiveVariant> read_member(CPUState*, target_ulong, ReadableDataType)];
    its body is in a source file that is not part of this development. *)

(** Modelled from the spec: the two failure tags of section 7 a decode can
    end with. *)
Inductive DecodeFailure : Type :=
  | MemoryFault
  | UnsupportedType.

(** Modelled from the spec: the typed value of section 9, a tagged variant
    over boolean, character, signed integer, unsigned integer, floating-point
    and raw address.  A floating-point value is its width in bytes and its bit
    pattern. *)
Inductive TypedValue : Type :=
  | VBoolean (b : bool)
  | VCharacter (c : Z)
  | VSigned (n : Z)
  | VUnsigned (n : Z)
  | VFloating (width : Z) (pattern : Z)
  | VAddress (a : Z).

(** Modelled from the spec: [Result<TypedValue, DecodeFailure>]. *)
Inductive Result : Type :=
  | Ok (v : TypedValue)
  | Err (e : DecodeFailure).

(** Modelled from the spec: the injected memory-access capability of
    section 6, [read_bytes(address, length) -> bytes | fault], as a function
    on the state of the host ([None] is the fault). *)
Definition capability (St : Type) : Type :=
  Z -> Z -> St -> option (list Byte.byte) * St.

(** A mock capability over a fixed memory that counts its invocations. *)
Definition counting (mem : Z -> Z -> option (list Byte.byte)) : capability nat :=
  fun address length n => (mem address length, S n).

Definition byte_value (b : Byte.byte) : Z := Z.of_N (Byte.to_N b).

(** Little-endian bytes to the number they spell. *)
Fixpoint le_bytes_to_Z (bs : list Byte.byte) : Z :=
  match bs with
  | [] => 0
  | b :: bs' => byte_value b + 256 * le_bytes_to_Z bs'
  end.

Definition decode_unsigned (little_endian : bool) (bs : list Byte.byte) : Z :=
  if little_endian then le_bytes_to_Z bs else le_bytes_to_Z (rev bs).

Definition decode_signed (little_endian : bool) (bs : list Byte.byte) : Z :=
  let u := decode_unsigned little_endian bs in
  let w := 8 * Z.of_nat (length bs) in
  if u <? 2 ^ (w - 1) then u else u - 2 ^ w.

(** Width of the extended floating-point format ([long double]). *)
Definition LONG_DOUBLE_SIZE : Z := 16.

(** Modelled from the spec: the directly convertible primitive kinds of
    section 4.2, step 3. *)
Definition is_primitive (t : DataType) : bool :=
  match t with
  | BOOL | CHAR | INT | FLOAT => true
  | _ => false
  end.

(** Modelled from the spec: the conversion per category of section 4.2,
    step 3.  A size and category combination that is not covered is
    [UnsupportedType]. *)
Definition convert (rdt : ReadableDataType) (bs : list Byte.byte) : Result :=
  match type rdt with
  | BOOL =>
      match bs with
      | [b] => Ok (VBoolean (negb (byte_value b =? 0)))
      | _ => Err UnsupportedType
      end
  | CHAR =>
      match bs with
      | [b] =>
          Ok (VCharacter (if is_signed rdt then decode_signed true [b]
                          else decode_unsigned true [b]))
      | _ => Err UnsupportedType
      end
  | INT =>
      match bs with
      | [] => Err UnsupportedType
      | _ =>
          if is_signed rdt then Ok (VSigned (decode_signed (is_le rdt) bs))
          else Ok (VUnsigned (decode_unsigned (is_le rdt) bs))
      end
  | FLOAT =>
      if (size_bytes rdt =? 4) || (size_bytes rdt =? 8)
         || (size_bytes rdt =? LONG_DOUBLE_SIZE)
      then Ok (VFloating (size_bytes rdt) (decode_unsigned (is_le rdt) bs))
      else Err UnsupportedType
  | _ => Err UnsupportedType
  end.

(** Modelled from the spec: the body of [read_member] is missing; this is
    the algorithm of section 4.2, steps 1 to 4, threading the state of the
    host through the one call of the capability.  The pointer depth of the
    spec is the pair of flags [is_ptr] and [is_double_ptr]. *)
Definition read_member {St : Type} (read_bytes : capability St)
    (address : Z) (descriptor : ReadableDataType) (s : St) : Result * St :=
  if negb (is_valid descriptor) then (Err UnsupportedType, s)
  else if is_ptr descriptor || is_double_ptr descriptor then
    match read_bytes address (size_bytes descriptor) s with
    | (None, s') => (Err MemoryFault, s')
    | (Some bs, s') => (Ok (VAddress (decode_unsigned (is_le descriptor) bs)), s')
    end
  else if is_primitive (type descriptor) then
    match read_bytes address (size_bytes descriptor) s with
    | (None, s') => (Err MemoryFault, s')
    | (Some bs, s') => (convert descriptor bs, s')
    end
  else (Err UnsupportedType, s).

(** The number of times a decode of [descriptor] at [address] invokes the
    capability, as the counting mock over [mem] reports it. *)
Definition invocations (mem : Z -> Z -> option (list Byte.byte))
    (address : Z) (descriptor : ReadableDataType) : nat :=
  snd (read_member (counting mem) address descriptor 0%nat).

(** *** The value [read_member] returns

    [typedef std::variant<...> PrimitiveVariant]: typesafe union for
    readable primitives.  A floating-point alternative is kept as its bit
    pattern, the pointer as the address. *)
Inductive PrimitiveVariant : Type :=
  | PV_bool (b : bool)
  | PV_char (c : Z)
  | PV_int (n : Z)
  | PV_long_int (n : Z)
  | PV_unsigned (n : Z)
  | PV_long_unsigned (n : Z)
  | PV_float (pattern : Z)
  | PV_double (pattern : Z)
  | PV_long_double (pattern : Z)
  | PV_uint8_ptr (a : Z).






Section Declared.
Context {St : Type}.

(** The header says neither how a typed value is held by the variant nor
    what the variant of a failed call holds; both are taken as given.  The
    second may depend on the arguments of the call. *)
Variable typed_copy : TypedValue -> PrimitiveVariant.
Variable no_data : ReadableDataType -> Z -> PrimitiveVariant.

(** Modelled from the spec: the body of [read_member] is missing; the
    algorithm is [read_member] above (section 4.2), and the value returned
    is the one of the declaration,
    [std::pair<bool, PrimitiveVariant> read_member(CPUState*, target_ulong, ReadableDataType)]:
    the bool indicates read success (accounting for paging errors) and type
    conversion success, the variant provides a typed copy of the data. *)
Definition read_member_pair (read_bytes : capability St)
    (address : Z) (descriptor : ReadableDataType) (s : St)
    : (bool * PrimitiveVariant) * St :=
  match read_member read_bytes address descriptor s with
  | (Ok v, s') => ((true, typed_copy v), s')
  | (Err _, s') => ((false, no_data descriptor address), s')
  end.

End Declared.



(** ** Output ([operator<<])

    An output stream as far as the two [operator<<] of the header use it:
    the characters written so far and the [boolalpha] format flag.  Numbers
    are formatted the default way (decimal, no padding). *)

Record ostream : Type := {
  written : string;
  boolalpha : bool
}.

(** [os << f]: the stream after [f] has acted on it. *)
Notation "os <<< f" := (f os) (at level 50, left associativity, only parsing).

(** [os << "..."] and [os << s] for a [std::string]. *)
Definition put_string (s : string) (os : ostream) : ostream :=
  {| written := written os +:+ s; boolalpha := boolalpha os |}.

(** The decimal digits of an unsigned number. *)
Definition decimal (z : Z) : string :=
  NilEmpty.string_of_uint (N.to_uint (Z.to_N z)).

(** [os << n] for an [unsigned] or a [size_t]. *)
Definition put_unsigned (z : Z) (os : ostream) : ostream :=
  put_string (decimal z) os.

(** [os << b] for a [bool]: a word when [boolalpha] is set, a digit when it
    is not. *)
Definition bool_word (b : bool) : string := if b then "true" else "false".
Definition bool_digit (b : bool) : string := if b then "1" else "0".

Definition put_bool (b : bool) (os : ostream) : ostream :=
  put_string (if boolalpha os then bool_word b else bool_digit b) os.

(** [os << std::boolalpha] *)
Definition set_boolalpha (os : ostream) : ostream :=
  {| written := written os; boolalpha := true |}.

Definition LF : Ascii.ascii := "010"%char.
Definition TAB : Ascii.ascii := "009"%char.

(** [os << std::endl] *)
Definition endl (os : ostream) : ostream :=
  put_string (String LF "") os.

(** The [switch] of [operator<<] on the value of [rdt.type], with its
    [default] branch. *)
Definition type_string (v : Z) : string :=
  if v =? DataType_value VOID then "void"
  else if v =? DataType_value BOOL then "bool"
  else if v =? DataType_value CHAR then "char"
  else if v =? DataType_value INT then "int"
  else if v =? DataType_value FLOAT then "float"
  else if v =? DataType_value STRUCT then "struct"
  else if v =? DataType_value FUNC then "function"
  else if v =? DataType_value ARRAY then "array"
  else if v =? DataType_value UNION then "union"
  else if v =? DataType_value ENUM then "enum"
  else "{unknown}".

(** [operator<<(std::ostream&, ReadableDataType const&)] *)
Definition print_ReadableDataType (os : ostream) (rdt : ReadableDataType) : ostream :=
  let type := type_string (DataType_value (type rdt)) in
  os <<< set_boolalpha
     <<< put_string "member '" <<< put_string (name rdt)
     <<< put_string "' (offset: " <<< put_unsigned (offset_bytes rdt)
     <<< put_string ", type: " <<< put_string type
     <<< put_string ", size: " <<< put_unsigned (size_bytes rdt)
     <<< put_string ", ptr: " <<< put_bool (is_ptr rdt)
     <<< put_string ", dptr: " <<< put_bool (is_double_ptr rdt)
     <<< put_string ", le: " <<< put_bool (is_le rdt)
     <<< put_string ", signed: " <<< put_bool (is_signed rdt)
     <<< put_string ", valid: " <<< put_bool (is_valid rdt)
     <<< put_string ")".

(** [operator<<(std::ostream&, StructDef const&)] *)
Definition print_StructDef (os : ostream) (sd : StructDef.t) : ostream :=
  let os :=
    os <<< put_string "struct '" <<< put_string (StructDef.name sd)
       <<< put_string "' (size: " <<< put_unsigned (StructDef.size_bytes sd)
       <<< put_string ", members: "
       <<< put_unsigned (Z.of_nat (length (StructDef.members sd)))
       <<< put_string "):" <<< endl in
  foldl (fun os member =>
           os <<< put_string (String TAB "")
              <<< (fun os => print_ReadableDataType os member)
              <<< endl)
        os (StructDef.members sd).

(** *** What a printed descriptor and a printed struct look like *)

(** The text one descriptor comes out as. *)
Definition text_of_ReadableDataType (rdt : ReadableDataType) : string :=
  "member '" +:+ name rdt
  +:+ "' (offset: " +:+ decimal (offset_bytes rdt)
  +:+ ", type: " +:+ DataType_name (type rdt)
  +:+ ", size: " +:+ decimal (size_bytes rdt)
  +:+ ", ptr: " +:+ bool_word (is_ptr rdt)
  +:+ ", dptr: " +:+ bool_word (is_double_ptr rdt)
  +:+ ", le: " +:+ bool_word (is_le rdt)
  +:+ ", signed: " +:+ bool_word (is_signed rdt)
  +:+ ", valid: " +:+ bool_word (is_valid rdt)
  +:+ ")".

(** The header line of a struct and the line of one member. *)
Definition header_of_StructDef (sd : StructDef.t) : string :=
  "struct '" +:+ StructDef.name sd
  +:+ "' (size: " +:+ decimal (StructDef.size_bytes sd)
  +:+ ", members: " +:+ decimal (Z.of_nat (length (StructDef.members sd)))
  +:+ "):" +:+ String LF "".

Definition line_of_member (rdt : ReadableDataType) : string :=
  String TAB (text_of_ReadableDataType rdt +:+ String LF "").

Fixpoint lines_of_members (members : list ReadableDataType) : string :=
  match members with
  | [] => ""
  | rdt :: members' => line_of_member rdt +:+ lines_of_members members'
  end.

(** How often a character occurs in a string. *)
Fixpoint occurrences (c : Ascii.ascii) (s : string) : nat :=
  match s with
  | EmptyString => 0%nat
  | String a s' => ((if Ascii.eqb c a then 1 else 0) + occurrences c s')%nat
  end.

(** What [operator<<] prints of a descriptor: eight of its fields and the
    name of its category. *)
Definition printed_fields (rdt : ReadableDataType)
  : string * Z * string * Z * bool * bool * bool * bool * bool :=
  (name rdt, offset_bytes rdt, DataType_name (type rdt), size_bytes rdt,
   is_ptr rdt, is_double_ptr rdt, is_le rdt, is_signed rdt, is_valid rdt).

(** ** Concrete descriptors used in the examples *)

(** A fresh descriptor as the named constructor leaves it, on storage whose
    validity byte reads [valid]. *)
Definition blank_storage (valid : bool) : ReadableDataType :=
  {| name := ""; size_bytes := 0; offset_bytes := 0; type := VOID;
     is_ptr := false; is_double_ptr := false; is_le := false;
     is_signed := false; is_valid := valid; ptr_trgt_name := "";
     arr_member_name := ""; arr_member_type := VOID;
     arr_member_size_bytes := 0 |}.

(** A valid array descriptor of [size] bytes with elements of [elem_size]
    bytes. *)
Definition array_of (size elem_size : Z) : ReadableDataType :=
  {| name := "buf"; size_bytes := size; offset_bytes := 0; type := ARRAY;
     is_ptr := false; is_double_ptr := false; is_le := true;
     is_signed := false; is_valid := true; ptr_trgt_name := "{none}";
     arr_member_name := "char"; arr_member_type := CHAR;
     arr_member_size_bytes := elem_size |}.

(** A non-pointer descriptor of category [t] with the given size, sign and
    validity. *)
Definition scalar_of (t : DataType) (size : Z) (signed valid : bool) : ReadableDataType :=
  {| name := "field"; size_bytes := size; offset_bytes := 0; type := t;
     is_ptr := false; is_double_ptr := false; is_le := true;
     is_signed := signed; is_valid := valid; ptr_trgt_name := "{none}";
     arr_member_name := "{none}"; arr_member_type := VOID;
     arr_member_size_bytes := 0 |}.

(** A pointer descriptor of the given width. *)
Definition pointer_of (size : Z) (target : string) : ReadableDataType :=
  {| name := "next"; size_bytes := size; offset_bytes := 8; type := STRUCT;
     is_ptr := true; is_double_ptr := false; is_le := true;
     is_signed := false; is_valid := true; ptr_trgt_name := target;
     arr_member_name := "{none}"; arr_member_type := VOID;
     arr_member_size_bytes := 0 |}.

(** A memory in which every address faults, and one that holds the same
    bytes at every address. *)
Definition unmapped : Z -> Z -> option (list Byte.byte) :=
  fun _ _ => None.
Definition filled (bs : list Byte.byte) : Z -> Z -> option (list Byte.byte) :=
  fun _ _ => Some bs.


Definition packet_resolve (r : DataType * Z) : ReadableDataType :=
  scalar_of (fst r) (snd r) true true.

(** What the load makes of [packet_document]. *)
Definition packet_data : ReadableDataType :=
  set_is_valid (set_offset_bytes (packet_resolve (ARRAY, 0)) 4) false.

Definition packet_def : StructDef.t :=
  {| StructDef.name := "packet";
     StructDef.size_bytes := 4;
     StructDef.members := [ set_offset_bytes (packet_resolve (INT, 4)) 0; packet_data ] |}.

(** Three functions entered out of address order, one address twice. *)
Definition sample_functions : StdMap.t string :=
  StdMap.assign 8192 "sys_read"
    (StdMap.insert 4096 "other"
       (StdMap.insert 12288 "sys_write"
          (StdMap.insert 4096 "sys_open" []))).

(** * Properties *)

(** Closed facts about concrete descriptors are settled by evaluation. *)
Ltac evaluate :=
  vm_compute; repeat split; first [ reflexivity | discriminate | congruence ].

(** ** [get_arr_size] *)

Lemma to_int_small (q : Z) : 0 <= q <= INT_MAX -> to_int q = q.
Proof.
  unfold INT_MAX, to_int. intros Hq.
  rewrite Z.mod_small; lia.
Qed.

Lemma get_arr_size_not_array (rdt : ReadableDataType) :
  type rdt <> ARRAY -> get_arr_size rdt = Returned (-1).
Proof. unfold get_arr_size. destruct (type rdt); congruence. Qed.

Lemma get_arr_size_empty (rdt : ReadableDataType) :
  type rdt = ARRAY -> size_bytes rdt = 0 -> get_arr_size rdt = Returned 0.
Proof. unfold get_arr_size. intros -> ->. reflexivity. Qed.

Lemma get_arr_size_zero_element (rdt : ReadableDataType) :
  type rdt = ARRAY -> size_bytes rdt <> 0 -> arr_member_size_bytes rdt = 0 ->
  get_arr_size rdt = DivisionByZero.
Proof.
  unfold get_arr_size. intros -> Hs ->.
  apply Z.eqb_neq in Hs. rewrite Hs. reflexivity.
Qed.

(** With a nonzero size and a nonzero element size the call is decided by
    the remainder alone. *)
Lemma get_arr_size_nonempty (rdt : ReadableDataType) :
  type rdt = ARRAY -> size_bytes rdt <> 0 -> arr_member_size_bytes rdt <> 0 ->
  get_arr_size rdt =
    if size_bytes rdt mod arr_member_size_bytes rdt =? 0
    then Returned (to_int (size_bytes rdt / arr_member_size_bytes rdt))
    else AssertionFailure.
Proof.
  unfold get_arr_size, umod, udiv. intros -> Hs Hm.
  apply Z.eqb_neq in Hs, Hm. rewrite Hs, Hm. simpl.
  destruct (size_bytes rdt mod arr_member_size_bytes rdt =? 0); reflexivity.
Qed.

(** C1 (as amended): for an array descriptor whose [size_bytes] is nonzero
    and an exact multiple of [arr_member_size_bytes], and whose element count
    [size_bytes / arr_member_size_bytes] is at most [INT_MAX], [get_arr_size]
    returns that count; for an array descriptor whose [size_bytes] is 0 it
    returns 0. *)
Theorem get_arr_size_array (rdt : ReadableDataType) :
  wf_ReadableDataType rdt ->
  type rdt = ARRAY ->
  (size_bytes rdt <> 0 ->
   Z.divide (arr_member_size_bytes rdt) (size_bytes rdt) ->
   size_bytes rdt / arr_member_size_bytes rdt <= INT_MAX ->
   get_arr_size rdt = Returned (size_bytes rdt / arr_member_size_bytes rdt))
  /\ (size_bytes rdt = 0 -> get_arr_size rdt = Returned 0).
Proof.
  intros (Hsize & _ & Helem) Harr. split.
  - intros Hs Hdiv Hfit.
    assert (Hm : arr_member_size_bytes rdt <> 0).
    { intros Hz. rewrite Hz in Hdiv. apply Z.divide_0_l in Hdiv. contradiction. }
    rewrite get_arr_size_nonempty by assumption.
    apply Z.mod_divide in Hdiv; [|assumption].
    rewrite Hdiv. simpl. f_equal. apply to_int_small. split; [|assumption].
    unfold is_unsigned in *. apply Z.div_pos; lia.
  - apply get_arr_size_empty, Harr.
Qed.

(** The example of the specification: 40 bytes of 10-byte elements are 4
    elements, and an array of unknown length reports 0. *)
Lemma get_arr_size_array_witness :
  get_arr_size (array_of 40 10) = Returned 4 /\
  get_arr_size (array_of 0 10) = Returned 0.
Proof.
  split.
  - apply (proj1 (get_arr_size_array (array_of 40 10) ltac:(evaluate) eq_refl));
      [ evaluate | exists 4; reflexivity | evaluate ].
  - apply (proj2 (get_arr_size_array (array_of 0 10) ltac:(evaluate) eq_refl)).
    reflexivity.
Defined.

(** C1 (as stated) fails: an array of 2^31 one-byte elements satisfies the
    premises, its element count does not fit the [int] result, and the call
    returns [INT_MIN]. *)
Lemma array_count_overflows_int :
  wf_ReadableDataType (array_of 2147483648 1) /\
  type (array_of 2147483648 1) = ARRAY /\
  size_bytes (array_of 2147483648 1) <> 0 /\
  Z.divide (arr_member_size_bytes (array_of 2147483648 1))
           (size_bytes (array_of 2147483648 1)) /\
  get_arr_size (array_of 2147483648 1) = Returned INT_MIN /\
  get_arr_size (array_of 2147483648 1) <>
    Returned (size_bytes (array_of 2147483648 1)
              / arr_member_size_bytes (array_of 2147483648 1)).
Proof.
  repeat split; try evaluate.
  exists 2147483648. reflexivity.
Qed.

(** C2 (as amended): for an array descriptor with nonzero [size_bytes] and
    nonzero [arr_member_size_bytes], where [size_bytes] is not a multiple of
    the element size, [get_arr_size] is an assertion failure; when
    [size_bytes] is zero or a multiple of the element size the assertion
    never fails. *)
Theorem get_arr_size_assertion (rdt : ReadableDataType) :
  type rdt = ARRAY ->
  (size_bytes rdt <> 0 ->
   arr_member_size_bytes rdt <> 0 ->
   ~ Z.divide (arr_member_size_bytes rdt) (size_bytes rdt) ->
   get_arr_size rdt = AssertionFailure)
  /\ (size_bytes rdt = 0 \/ Z.divide (arr_member_size_bytes rdt) (size_bytes rdt) ->
      get_arr_size rdt <> AssertionFailure).
Proof.
  intros Harr. split.
  - intros Hs Hm Hndiv.
    rewrite get_arr_size_nonempty by assumption.
    destruct (Z.eqb_spec (size_bytes rdt mod arr_member_size_bytes rdt) 0) as [Hr|Hr].
    + apply Z.mod_divide in Hr; [contradiction | assumption].
    + reflexivity.
  - intros Hpre.
    destruct (Z.eq_dec (size_bytes rdt) 0) as [Hs|Hs].
    { rewrite get_arr_size_empty by assumption. discriminate. }
    destruct Hpre as [Hz|Hdiv]; [contradiction|].
    destruct (Z.eq_dec (arr_member_size_bytes rdt) 0) as [Hm|Hm].
    { rewrite Hm in Hdiv. apply Z.divide_0_l in Hdiv. contradiction. }
    rewrite get_arr_size_nonempty by assumption.
    apply Z.mod_divide in Hdiv; [|assumption].
    rewrite Hdiv. discriminate.
Qed.

(** The example of the specification: 41 bytes of 10-byte elements violate
    the invariant, 40 bytes do not. *)
Lemma get_arr_size_assertion_witness :
  get_arr_size (array_of 41 10) = AssertionFailure /\
  get_arr_size (array_of 40 10) <> AssertionFailure.
Proof.
  split.
  - apply (proj1 (get_arr_size_assertion (array_of 41 10) eq_refl));
      [ evaluate | evaluate | ].
    intros [k Hk]. simpl in Hk. lia.
  - apply (proj2 (get_arr_size_assertion (array_of 40 10) eq_refl)).
    right. exists 4. reflexivity.
Defined.

(** C2 (as stated) fails: with an element size of 0 a nonzero [size_bytes]
    is not a multiple of it, and the call stops in the remainder by zero
    that the assertion's condition evaluates, not in the assertion. *)
Lemma zero_element_size_is_not_assertion :
  type (array_of 5 0) = ARRAY /\
  size_bytes (array_of 5 0) <> 0 /\
  ~ Z.divide (arr_member_size_bytes (array_of 5 0)) (size_bytes (array_of 5 0)) /\
  get_arr_size (array_of 5 0) = DivisionByZero /\
  get_arr_size (array_of 5 0) <> AssertionFailure.
Proof.
  repeat split; try evaluate.
  intros [k Hk]. simpl in Hk. lia.
Qed.

(** C6: for an array descriptor with nonzero [size_bytes], [get_arr_size]
    evaluates a remainder and a quotient by [arr_member_size_bytes] with no
    guard: the call is a division by zero exactly when the element size is
    zero, so a nonzero element size is its precondition. *)
Theorem get_arr_size_requires_nonzero_element (rdt : ReadableDataType) :
  type rdt = ARRAY ->
  size_bytes rdt <> 0 ->
  (get_arr_size rdt = DivisionByZero <-> arr_member_size_bytes rdt = 0).
Proof.
  intros Harr Hs. split.
  - intros Hcall.
    destruct (Z.eq_dec (arr_member_size_bytes rdt) 0) as [Hm|Hm]; [assumption|].
    rewrite get_arr_size_nonempty in Hcall by assumption.
    destruct (_ =? 0) in Hcall; discriminate.
  - apply get_arr_size_zero_element; assumption.
Qed.

Lemma get_arr_size_requires_nonzero_element_witness :
  get_arr_size (array_of 5 0) = DivisionByZero /\
  get_arr_size (array_of 40 10) <> DivisionByZero.
Proof.
  split.
  - apply (proj2 (get_arr_size_requires_nonzero_element (array_of 5 0)
                    eq_refl ltac:(evaluate))).
    reflexivity.
  - intros Hcall.
    apply (proj1 (get_arr_size_requires_nonzero_element (array_of 40 10)
                    eq_refl ltac:(evaluate))) in Hcall.
    discriminate Hcall.
Defined.

(** C10: for a descriptor whose category is not array, [get_arr_size]
    returns -1, whatever [size_bytes] and [arr_member_size_bytes] are. *)
Theorem get_arr_size_other_category (rdt : ReadableDataType) :
  type rdt <> ARRAY -> get_arr_size rdt = Returned (-1).
Proof. apply get_arr_size_not_array. Qed.

Lemma get_arr_size_other_category_witness :
  get_arr_size (scalar_of STRUCT 41 false true) = Returned (-1).
Proof.
  apply (get_arr_size_other_category (scalar_of STRUCT 41 false true)).
  evaluate.
Defined.

(** An array of [UINT_MAX] one-byte elements reports the value that stands
    for "not an array". *)
Example get_arr_size_uint_max :
  get_arr_size (array_of 4294967295 1) = Returned (-1).
Proof. reflexivity. Qed.

(** ** Constructors *)

(** Every member named in the mem-initializer list has the same value
    whatever the storage held. *)
Lemma ReadableDataType_pointer_ctor_fields (this : ReadableDataType) (p d : string) :
  ReadableDataType_pointer_ctor this p d =
  {| name := p; size_bytes := 0; offset_bytes := 0; type := VOID;
     is_ptr := false; is_double_ptr := false; is_le := true;
     is_signed := false; is_valid := is_valid this; ptr_trgt_name := d;
     arr_member_name := "{none}"; arr_member_type := VOID;
     arr_member_size_bytes := 0 |}.
Proof. reflexivity. Qed.

(** C5 (fails on the code): none of the three constructors names [is_valid]
    in a mem-initializer list, so after construction the flag is whatever
    the storage held: the same constructor call yields a valid descriptor on
    one storage and an invalid one on another. *)
Theorem constructors_leave_is_valid_indeterminate :
  (forall (this : ReadableDataType) (p d n : string),
     is_valid (ReadableDataType_pointer_ctor this p d) = is_valid this /\
     is_valid (ReadableDataType_named_ctor this n) = is_valid this /\
     is_valid (ReadableDataType_noargs_ctor this) = is_valid this)
  /\ is_valid (ReadableDataType_noargs_ctor (blank_storage true)) = true
  /\ is_valid (ReadableDataType_noargs_ctor (blank_storage false)) = false.
Proof. repeat split. Qed.

(** ** The tag set *)

Lemma DataType_value_inj (t1 t2 : DataType) :
  DataType_value t1 = DataType_value t2 -> t1 = t2.
Proof.
  destruct t1 as [| | | | | | | | | |[]], t2 as [| | | | | | | | | |[]];
    simpl; intros H; first [reflexivity | discriminate H].
Qed.

Lemma DataType_all_named (t : DataType) :
  t ∈ DataType_all <-> DataType_value t <= 9.
Proof.
  unfold DataType_all. split.
  - intros H. repeat (apply elem_of_cons in H as [->|H]; [simpl; lia|]).
    inversion H.
  - destruct t as [| | | | | | | | | |[]]; simpl; intros H;
      first [lia | set_solver].
Qed.

(** C7 (as amended): the Type Category has exactly ten named tags, with the
    values 0 to 9, pairwise distinct, printed as void, bool, char, int,
    float, struct, function, array, union and enum; the category of a
    descriptor is a value from 0 to 15, one of the ten tags exactly when it
    is at most 9, and [operator<<] prints [{unknown}] exactly for the
    values that are none of the ten. *)
Theorem DataType_named_and_unnamed :
  NoDup DataType_all
  /\ length DataType_all = 10%nat
  /\ map DataType_value DataType_all = [0; 1; 2; 3; 4; 5; 6; 7; 8; 9]
  /\ map DataType_name DataType_all =
       ["void"; "bool"; "char"; "int"; "float"; "struct"; "function";
        "array"; "union"; "enum"]
  /\ (forall t : DataType, 0 <= DataType_value t <= 15)
  /\ (forall t1 t2 : DataType, DataType_value t1 = DataType_value t2 -> t1 = t2)
  /\ (forall t : DataType, t ∈ DataType_all <-> DataType_value t <= 9)
  /\ (forall t : DataType,
        (t ∉ DataType_all) <-> type_string (DataType_value t) = "{unknown}").
Proof.
  split; [apply (bool_decide_unpack _); vm_compute; exact I|].
  do 3 (split; [reflexivity|]).
  split; [intros [| | | | | | | | | |[]]; simpl; lia|].
  split; [exact DataType_value_inj|].
  split; [exact DataType_all_named|].
  intros t. rewrite DataType_all_named.
  destruct t as [| | | | | | | | | |[]]; simpl; split;
    first [reflexivity | discriminate | lia].
Qed.

(** C7 (as stated) fails: a descriptor whose category is the value 10 is
    none of the ten tags, and the code provides for it: [operator<<] prints
    it through the [default] branch of its [switch], and [get_arr_size]
    takes it for "not an array". *)
Lemma unnamed_category_in_descriptor :
  (type (scalar_of (UNNAMED U10) 4 false true) ∉ DataType_all)
  /\ DataType_value (type (scalar_of (UNNAMED U10) 4 false true)) = 10
  /\ written (print_ReadableDataType {| written := ""; boolalpha := false |}
                (scalar_of (UNNAMED U10) 4 false true))
     = "member 'field' (offset: 0, type: {unknown}, size: 4, ptr: false, dptr: false, le: true, signed: false, valid: true)"
  /\ get_arr_size (scalar_of (UNNAMED U10) 4 false true) = Returned (-1).
Proof.
  split; [|repeat split].
  rewrite DataType_all_named. simpl. lia.
Qed.

(** ** [read_member] *)

(** The scenario of the specification: [pid] reads 42 and [next] reads 16. *)
Example read_member_task_scenario :
  read_member (counting (filled [Byte.x2a; Byte.x00; Byte.x00; Byte.x00]))
    4096 (scalar_of INT 4 true true) 0%nat = (Ok (VSigned 42), 1%nat) /\
  read_member (counting (filled [Byte.x10; Byte.x00; Byte.x00; Byte.x00;
                                 Byte.x00; Byte.x00; Byte.x00; Byte.x00]))
    4104 (pointer_of 8 "Task") 0%nat = (Ok (VAddress 16), 1%nat).
Proof. split; reflexivity. Qed.

Lemma read_member_invalid {St : Type} (read_bytes : capability St)
    (address : Z) (descriptor : ReadableDataType) (s : St) :
  is_valid descriptor = false ->
  read_member read_bytes address descriptor s = (Err UnsupportedType, s).
Proof. unfold read_member. intros ->. reflexivity. Qed.

(** A valid pointer or primitive descriptor costs exactly one read, whether
    it succeeds or not. *)
Lemma read_member_reads_once (mem : Z -> Z -> option (list Byte.byte))
    (address : Z) (descriptor : ReadableDataType) :
  is_valid descriptor = true ->
  is_ptr descriptor || is_double_ptr descriptor || is_primitive (type descriptor) = true ->
  invocations mem address descriptor = 1%nat.
Proof.
  unfold invocations, read_member, counting. intros -> Hreads. simpl.
  destruct (is_ptr descriptor || is_double_ptr descriptor); simpl in *.
  - destruct (mem address (size_bytes descriptor)); reflexivity.
  - rewrite Hreads. destruct (mem address (size_bytes descriptor)); reflexivity.
Qed.

(** C4: for a descriptor with [is_valid = false], every address and every
    memory capability, [read_member] fails with [UnsupportedType] and leaves
    the state of the host as it was; on the counting mock the number of
    invocations is zero. *)
Theorem read_member_invalid_descriptor {St : Type} (read_bytes : capability St)
    (mem : Z -> Z -> option (list Byte.byte))
    (address : Z) (descriptor : ReadableDataType) (s : St) :
  is_valid descriptor = false ->
  read_member read_bytes address descriptor s = (Err UnsupportedType, s)
  /\ fst (read_member (counting mem) address descriptor 0%nat) = Err UnsupportedType
  /\ invocations mem address descriptor = 0%nat.
Proof.
  intros Hinv. unfold invocations.
  rewrite !read_member_invalid by assumption. auto.
Qed.

Lemma read_member_invalid_descriptor_witness :
  read_member (counting (filled [Byte.x2a])) 4096 (scalar_of INT 4 true false) 7%nat
    = (Err UnsupportedType, 7%nat)
  /\ fst (read_member (counting unmapped) 4096 (scalar_of INT 4 true false) 0%nat)
     = Err UnsupportedType
  /\ invocations unmapped 4096 (scalar_of INT 4 true false) = 0%nat.
Proof.
  apply (read_member_invalid_descriptor (counting (filled [Byte.x2a])) unmapped
           4096 (scalar_of INT 4 true false) 7%nat).
  reflexivity.
Defined.








(** Two failed calls on the same descriptor and address return the same
    value, whatever the memory did. *)
Lemma failures_return_alike {St : Type}
    (typed_copy : TypedValue -> PrimitiveVariant)
    (no_data : ReadableDataType -> Z -> PrimitiveVariant)
    (read_bytes read_bytes' : capability St)
    (address : Z) (d : ReadableDataType) (s s' : St) :
  fst (fst (read_member_pair typed_copy no_data read_bytes address d s)) = false ->
  fst (fst (read_member_pair typed_copy no_data read_bytes' address d s')) = false ->
  fst (read_member_pair typed_copy no_data read_bytes address d s)
  = fst (read_member_pair typed_copy no_data read_bytes' address d s').
Proof.
  unfold read_member_pair.
  destruct (read_member read_bytes address d s) as [[v|e] s1];
    destruct (read_member read_bytes' address d s') as [[v'|e'] s2];
    simpl; intros H1 H2; first [discriminate | reflexivity].
Qed.



(** ** [std::map]: the keys stay ordered and unique *)

Section StdMapFacts.
Context {V : Type}.
Implicit Types (m : StdMap.t V) (k a : Z) (v : V).

Lemma StdMap_keys_insert k v m x :
  x ∈ StdMap.keys (StdMap.insert k v m) -> x = k \/ x ∈ StdMap.keys m.
Proof.
  induction m as [|[k' v'] m IH]; simpl.
  - rewrite list_elem_of_singleton. auto.
  - destruct (k <? k'); [|destruct (k =? k')]; simpl;
      rewrite ?elem_of_cons; intuition.
Qed.

Lemma StdMap_keys_assign k v m x :
  x ∈ StdMap.keys (StdMap.assign k v m) -> x = k \/ x ∈ StdMap.keys m.
Proof.
  induction m as [|[k' v'] m IH]; simpl.
  - rewrite list_elem_of_singleton. auto.
  - destruct (k <? k'); [|destruct (k =? k')]; simpl;
      rewrite ?elem_of_cons; intuition.
Qed.

Lemma StdMap_keys_erase k m x :
  x ∈ StdMap.keys (StdMap.erase k m) -> x ∈ StdMap.keys m.
Proof.
  induction m as [|[k' v'] m IH]; simpl; [auto|].
  destruct (k <? k'); [|destruct (k =? k')]; simpl;
    rewrite ?elem_of_cons; intuition.
Qed.

Lemma StdMap_insert_sorted k v m :
  StronglySorted Z.lt (StdMap.keys m) ->
  StronglySorted Z.lt (StdMap.keys (StdMap.insert k v m)).
Proof.
  induction m as [|[k' v'] m IH]; simpl; intros Hs.
  - repeat constructor.
  - apply StronglySorted_inv in Hs as [Hs Hall].
    destruct (Z.ltb_spec k k'); [|destruct (Z.eqb_spec k k')]; simpl.
    + repeat constructor; auto.
      eapply Forall_impl; [exact Hall|]. simpl. lia.
    + constructor; assumption.
    + constructor; [auto|].
      apply Forall_forall. intros x Hx.
      apply StdMap_keys_insert in Hx as [->|Hx]; [lia|].
      rewrite Forall_forall in Hall. auto.
Qed.

Lemma StdMap_assign_sorted k v m :
  StronglySorted Z.lt (StdMap.keys m) ->
  StronglySorted Z.lt (StdMap.keys (StdMap.assign k v m)).
Proof.
  induction m as [|[k' v'] m IH]; simpl; intros Hs.
  - repeat constructor.
  - apply StronglySorted_inv in Hs as [Hs Hall].
    destruct (Z.ltb_spec k k'); [|destruct (Z.eqb_spec k k')]; simpl.
    + repeat constructor; auto.
      eapply Forall_impl; [exact Hall|]. simpl. lia.
    + subst k'. constructor; assumption.
    + constructor; [auto|].
      apply Forall_forall. intros x Hx.
      apply StdMap_keys_assign in Hx as [->|Hx]; [lia|].
      rewrite Forall_forall in Hall. auto.
Qed.

Lemma StdMap_erase_sorted k m :
  StronglySorted Z.lt (StdMap.keys m) ->
  StronglySorted Z.lt (StdMap.keys (StdMap.erase k m)).
Proof.
  induction m as [|[k' v'] m IH]; simpl; intros Hs; [assumption|].
  pose proof Hs as Hs'.
  apply StronglySorted_inv in Hs as [Hs Hall].
  destruct (k <? k'); [|destruct (k =? k')]; simpl; auto.
  constructor; [auto|].
  apply Forall_forall. intros x Hx.
  apply StdMap_keys_erase in Hx.
  rewrite Forall_forall in Hall. auto.
Qed.

Lemma StdMap_reachable_sorted m :
  StdMap.reachable m -> StronglySorted Z.lt (StdMap.keys m).
Proof.
  induction 1;
    auto using StdMap_insert_sorted, StdMap_assign_sorted, StdMap_erase_sorted.
  constructor.
Qed.

Lemma sorted_keys_NoDup (l : list Z) : StronglySorted Z.lt l -> NoDup l.
Proof.
  induction 1 as [|x l Hs IH Hall]; constructor; [|assumption].
  intros Hx. rewrite Forall_forall in Hall. specialize (Hall _ Hx). lia.
Qed.

Lemma StdMap_elem_key k v m : (k, v) ∈ m -> k ∈ StdMap.keys m.
Proof. intros H. apply (list_elem_of_fmap_2 fst) in H. exact H. Qed.

Lemma StdMap_functional m k v v' :
  NoDup (StdMap.keys m) -> (k, v) ∈ m -> (k, v') ∈ m -> v = v'.
Proof.
  induction m as [|[k0 v0] m IH]; simpl; intros Hnd H1 H2.
  - inversion H1.
  - apply NoDup_cons in Hnd as [Hk0 Hnd].
    apply elem_of_cons in H1 as [[= -> ->]|H1];
      apply elem_of_cons in H2 as [[= <-]|H2]; auto.
    + subst. destruct Hk0. eapply StdMap_elem_key; eauto.
    + destruct Hk0. eapply StdMap_elem_key; eauto.
Qed.

Lemma StdMap_nearest_below_spec a m :
  StronglySorted Z.lt (StdMap.keys m) ->
  match StdMap.nearest_below a m with
  | Some (k, v) =>
      (k, v) ∈ m /\ k <= a /\ (forall k' v', (k', v') ∈ m -> k' <= a -> k' <= k)
  | None => forall k' v', (k', v') ∈ m -> a < k'
  end.
Proof.
  induction m as [|[k0 v0] m IH]; simpl; intros Hs.
  - intros k' v' H. inversion H.
  - apply StronglySorted_inv in Hs as [Hs Hall].
    rewrite Forall_forall in Hall.
    destruct (Z.ltb_spec a k0) as [Hlt|Hge].
    + intros k' v' [[= -> ->]|Hin]%elem_of_cons; [assumption|].
      apply StdMap_elem_key, Hall in Hin. lia.
    + specialize (IH Hs).
      destruct (StdMap.nearest_below a m) as [[k v]|].
      * destruct IH as (Hin & Hle & Hmax). repeat split.
        -- apply elem_of_cons. auto.
        -- assumption.
        -- intros k' v' [[= -> ->]|Hin']%elem_of_cons Hk'.
           ++ apply StdMap_elem_key, Hall in Hin. lia.
           ++ eauto.
      * repeat split.
        -- apply elem_of_cons. auto.
        -- assumption.
        -- intros k' v' [[= -> ->]|Hin']%elem_of_cons Hk'; [lia|].
           apply IH in Hin'. lia.
Qed.

Lemma StdMap_find_spec k v m :
  StronglySorted Z.lt (StdMap.keys m) ->
  StdMap.find k m = Some v <-> (k, v) ∈ m.
Proof.
  induction m as [|[k0 v0] m IH]; simpl; intros Hs.
  - split; [discriminate | intros H; inversion H].
  - apply StronglySorted_inv in Hs as [Hs Hall].
    rewrite Forall_forall in Hall.
    rewrite elem_of_cons.
    destruct (Z.ltb_spec k k0) as [Hlt|Hge]; [|destruct (Z.eqb_spec k k0) as [->|Hne]].
    + split; [discriminate|].
      intros [[= -> ->]|Hin]; [lia|].
      apply StdMap_elem_key, Hall in Hin. lia.
    + split; [intros [= ->]; auto|].
      intros [[= ->]|Hin]; [reflexivity|].
      apply StdMap_elem_key, Hall in Hin. lia.
    + rewrite (IH Hs). split; [auto|].
      intros [[= -> ->]|Hin]; [contradiction|assumption].
Qed.

End StdMapFacts.

(** ** The function mapping of the catalog *)

(** C8: in every function mapping a program can build from the empty one
    with the operations of [std::map], the keys are strictly ascending by
    address, hence unique, a key has one name, an exact lookup finds it, and
    the lookup of the nearest entry at or below an address is well-defined:
    it finds the entry with the greatest key that is at most the address, or
    there is none. *)
Theorem func_hashtable_unique_ordered (m : StdMap.t string) :
  StdMap.reachable m ->
  StronglySorted Z.lt (StdMap.keys m)
  /\ NoDup (StdMap.keys m)
  /\ (forall k v v', (k, v) ∈ m -> (k, v') ∈ m -> v = v')
  /\ (forall k v, StdMap.find k m = Some v <-> (k, v) ∈ m)
  /\ (forall a,
        match StdMap.nearest_below a m with
        | Some (k, v) =>
            (k, v) ∈ m /\ k <= a /\
            (forall k' v', (k', v') ∈ m -> k' <= a -> k' <= k)
        | None => forall k' v', (k', v') ∈ m -> a < k'
        end).
Proof.
  intros Hm. apply StdMap_reachable_sorted in Hm.
  pose proof (sorted_keys_NoDup _ Hm) as Hnd.
  repeat split; try assumption.
  - intros k v v'. apply StdMap_functional, Hnd.
  - apply StdMap_find_spec, Hm.
  - apply StdMap_find_spec, Hm.
  - intros a. apply StdMap_nearest_below_spec, Hm.
Qed.

Example sample_functions_content :
  sample_functions = [(4096, "sys_open"); (8192, "sys_read"); (12288, "sys_write")]
  /\ StdMap.nearest_below 9000 sample_functions = Some (8192, "sys_read")
  /\ StdMap.nearest_below 100 sample_functions = None.
Proof. repeat split. Qed.

Lemma func_hashtable_unique_ordered_witness :
  StronglySorted Z.lt (StdMap.keys sample_functions)
  /\ NoDup (StdMap.keys sample_functions)
  /\ (forall k v v', (k, v) ∈ sample_functions -> (k, v') ∈ sample_functions -> v = v')
  /\ (forall k v, StdMap.find k sample_functions = Some v <-> (k, v) ∈ sample_functions)
  /\ (forall a,
        match StdMap.nearest_below a sample_functions with
        | Some (k, v) =>
            (k, v) ∈ sample_functions /\ k <= a /\
            (forall k' v', (k', v') ∈ sample_functions -> k' <= a -> k' <= k)
        | None => forall k' v', (k', v') ∈ sample_functions -> a < k'
        end).
Proof.
  apply (func_hashtable_unique_ordered sample_functions).
  unfold sample_functions. repeat constructor.
Defined.

Section LoaderFacts.
Context {TypeRef : Type}.
Variable resolve_type : TypeRef -> ReadableDataType.
Implicit Types (e : Entry TypeRef) (c : Catalog) (root : list (Entry TypeRef)).

(** The function mapping a load leaves is one the operations of [std::map]
    build. *)
Lemma load_json_func_hashtable_reachable root c :
  StdMap.reachable (func_hashtable c) ->
  StdMap.reachable (func_hashtable (load_json resolve_type root c)).
Proof.
  revert c. induction root as [|e root IH]; simpl; intros c Hc; [assumption|].
  apply IH. unfold load_entry.
  destruct (_ || _); simpl; [assumption|].
  destruct (bool_decide _); simpl; [|assumption].
  constructor. assumption.
Qed.







End LoaderFacts.

(** ** Member offsets of an aggregate *)

(** A freshly constructed [StructDef] has size 0 and no members. *)
Lemma StructDef_ctor_empty (name_in : string) :
  StructDef.size_bytes (StructDef.ctor name_in) = 0
  /\ StructDef.members (StructDef.ctor name_in) = []
  /\ StructDef.name StructDef.ctor_noargs = "{unknown}".
Proof. repeat split. Qed.





(** * Further properties *)

(** ** [get_arr_size]: when it returns and what it returns *)

(** The conversion to [int] of a value of [unsigned]: unchanged up to
    [INT_MAX], 2^32 less above. *)
Lemma to_int_unsigned (q : Z) :
  is_unsigned q ->
  (q <= INT_MAX /\ to_int q = q) \/ (INT_MAX < q /\ to_int q = q - 2 ^ 32).
Proof.
  unfold is_unsigned, UINT_MAX, INT_MAX, to_int. intros Hq.
  destruct (Z_le_gt_dec q (2 ^ 31 - 1)) as [Hle|Hgt].
  - left. split; [assumption|]. rewrite Z.mod_small; lia.
  - right. split; [lia|].
    replace (q + 2 ^ 31) with ((q - 2 ^ 31) + 1 * 2 ^ 32) by lia.
    rewrite Z.mod_add by lia. rewrite Z.mod_small; lia.
Qed.

Lemma quotient_unsigned (a b : Z) :
  is_unsigned a -> 0 < b -> is_unsigned (a / b) /\ a / b <= a.
Proof.
  unfold is_unsigned. intros Ha Hb.
  assert (0 <= a / b) by (apply Z.div_pos; lia).
  assert (a / b <= a) by (apply Z.div_le_upper_bound; nia).
  lia.
Qed.

(** X1: [get_arr_size] returns, rather than stopping in the assertion or in
    a division by zero, exactly when the descriptor is not an array, or its
    size is 0, or its element size is nonzero and divides its size. *)
Theorem get_arr_size_returns_iff (rdt : ReadableDataType) :
  (exists v, get_arr_size rdt = Returned v) <->
  (type rdt <> ARRAY \/ size_bytes rdt = 0 \/
   (arr_member_size_bytes rdt <> 0 /\
    Z.divide (arr_member_size_bytes rdt) (size_bytes rdt))).
Proof.
  destruct (decide (type rdt = ARRAY)) as [Harr|Harr].
  2: { rewrite get_arr_size_not_array by assumption. split; eauto. }
  destruct (Z.eq_dec (size_bytes rdt) 0) as [Hs|Hs].
  { rewrite get_arr_size_empty by assumption. split; eauto. }
  destruct (Z.eq_dec (arr_member_size_bytes rdt) 0) as [Hm|Hm].
  { rewrite get_arr_size_zero_element by assumption. split.
    - intros [v Hv]. discriminate.
    - intros [?|[?|[? _]]]; contradiction. }
  rewrite get_arr_size_nonempty by assumption.
  destruct (Z.eqb_spec (size_bytes rdt mod arr_member_size_bytes rdt) 0) as [Hr|Hr].
  - split; [|eauto]. intros _. right. right. split; [assumption|].
    apply Z.mod_divide; assumption.
  - split.
    + intros [v Hv]. discriminate.
    + intros [?|[?|[_ Hdiv]]]; try contradiction.
      apply Z.mod_divide in Hdiv; [contradiction|assumption].
Qed.

(** X2: for a well-formed array descriptor with a nonzero element size and
    a count [n] that fits [int], [get_arr_size] returns [n] exactly when the
    size is [n] elements long: the count it reports times the element size
    gives the size back. *)
Theorem get_arr_size_count_iff (rdt : ReadableDataType) (n : Z) :
  wf_ReadableDataType rdt ->
  type rdt = ARRAY ->
  arr_member_size_bytes rdt <> 0 ->
  0 <= n <= INT_MAX ->
  (get_arr_size rdt = Returned n <->
   size_bytes rdt = n * arr_member_size_bytes rdt).
Proof.
  intros (Hsize & _ & Helem) Harr Hm Hn.
  assert (He : 0 < arr_member_size_bytes rdt) by (unfold is_unsigned in Helem; lia).
  destruct (Z.eq_dec (size_bytes rdt) 0) as [Hs|Hs].
  { rewrite get_arr_size_empty by assumption. rewrite Hs. split.
    - intros [= <-]. lia.
    - intros Hz. f_equal. nia. }
  rewrite get_arr_size_nonempty by assumption.
  destruct (quotient_unsigned _ _ Hsize He) as [Hq _].
  destruct (Z.eqb_spec (size_bytes rdt mod arr_member_size_bytes rdt) 0) as [Hr|Hr].
  - pose proof (Z.div_mod (size_bytes rdt) (arr_member_size_bytes rdt) Hm) as Hdm.
    destruct (to_int_unsigned _ Hq) as [[Hfit Hto]|[Hbig Hto]]; rewrite Hto.
    + split.
      * intros [= <-]. lia.
      * intros Hsz. f_equal. nia.
    + split.
      * intros [= <-]. unfold is_unsigned, UINT_MAX in Hq. lia.
      * intros Hsz. exfalso. nia.
  - split; [discriminate|].
    intros Hsz. destruct Hr. rewrite Hsz. apply Z.mod_mul. assumption.
Qed.

Lemma get_arr_size_count_iff_witness :
  get_arr_size (array_of 40 10) = Returned 4 <->
  size_bytes (array_of 40 10) = 4 * arr_member_size_bytes (array_of 40 10).
Proof.
  apply (get_arr_size_count_iff (array_of 40 10) 4); evaluate.
Defined.

(** X3: on a well-formed descriptor the value -1, which stands for "not an
    array", is returned exactly when the descriptor is not an array or is an
    array of [UINT_MAX] elements of one byte: for every other array the
    value tells the two apart. *)
Theorem get_arr_size_minus_one_iff (rdt : ReadableDataType) :
  wf_ReadableDataType rdt ->
  (get_arr_size rdt = Returned (-1) <->
   type rdt <> ARRAY \/
   (size_bytes rdt = UINT_MAX /\ arr_member_size_bytes rdt = 1)).
Proof.
  intros (Hsize & _ & Helem).
  destruct (decide (type rdt = ARRAY)) as [Harr|Harr].
  2: { rewrite get_arr_size_not_array by assumption. tauto. }
  destruct (Z.eq_dec (size_bytes rdt) 0) as [Hs|Hs].
  { rewrite get_arr_size_empty by assumption. split; [discriminate|].
    unfold UINT_MAX. intros [?|[? _]]; [contradiction|lia]. }
  destruct (Z.eq_dec (arr_member_size_bytes rdt) 0) as [Hm|Hm].
  { rewrite get_arr_size_zero_element by assumption. split; [discriminate|].
    intros [?|[_ ?]]; [contradiction|lia]. }
  assert (He : 0 < arr_member_size_bytes rdt) by (unfold is_unsigned in Helem; lia).
  rewrite get_arr_size_nonempty by assumption.
  destruct (quotient_unsigned _ _ Hsize He) as [Hq Hle].
  pose proof (Z.div_mod (size_bytes rdt) (arr_member_size_bytes rdt) Hm) as Hdm.
  destruct (Z.eqb_spec (size_bytes rdt mod arr_member_size_bytes rdt) 0) as [Hr|Hr].
  - destruct (to_int_unsigned _ Hq) as [[Hfit Hto]|[Hbig Hto]]; rewrite Hto.
    + split.
      * intros [= Hneg]. unfold is_unsigned in Hq. lia.
      * intros [?|[Hmax Hone]]; [contradiction|].
        rewrite Hmax, Hone, Z.div_1_r in Hfit. unfold UINT_MAX, INT_MAX in Hfit. lia.
    + unfold is_unsigned, UINT_MAX in *. split.
      * intros [= Hq1]. right. nia.
      * intros [?|[Hmax Hone]]; [contradiction|].
        rewrite Hmax, Hone, Z.div_1_r. reflexivity.
  - split; [discriminate|].
    intros [?|[Hmax Hone]]; [contradiction|].
    destruct Hr. rewrite Hone. apply Z.mod_1_r.
Qed.

Lemma get_arr_size_minus_one_iff_witness :
  get_arr_size (array_of 4294967295 1) = Returned (-1) <->
  type (array_of 4294967295 1) <> ARRAY \/
  (size_bytes (array_of 4294967295 1) = UINT_MAX /\
   arr_member_size_bytes (array_of 4294967295 1) = 1).
Proof.
  apply (get_arr_size_minus_one_iff (array_of 4294967295 1)). evaluate.
Defined.

(** X4: a well-formed array descriptor of at most [INT_MAX] bytes never
    reports a negative count, and never more elements than it has bytes. *)
Theorem get_arr_size_bounds (rdt : ReadableDataType) (v : Z) :
  wf_ReadableDataType rdt ->
  type rdt = ARRAY ->
  size_bytes rdt <= INT_MAX ->
  get_arr_size rdt = Returned v ->
  0 <= v <= size_bytes rdt.
Proof.
  intros (Hsize & _ & Helem) Harr Hfit Hcall.
  destruct (Z.eq_dec (size_bytes rdt) 0) as [Hs|Hs].
  { rewrite get_arr_size_empty in Hcall by assumption.
    injection Hcall as <-. lia. }
  destruct (Z.eq_dec (arr_member_size_bytes rdt) 0) as [Hm|Hm].
  { rewrite get_arr_size_zero_element in Hcall by assumption. discriminate. }
  assert (He : 0 < arr_member_size_bytes rdt) by (unfold is_unsigned in Helem; lia).
  rewrite get_arr_size_nonempty in Hcall by assumption.
  destruct (_ =? 0) in Hcall; [|discriminate].
  injection Hcall as <-.
  destruct (quotient_unsigned _ _ Hsize He) as [Hq Hle].
  rewrite to_int_small; unfold is_unsigned in Hq; lia.
Qed.

Lemma get_arr_size_bounds_witness : 0 <= 4 <= size_bytes (array_of 40 10).
Proof.
  apply (get_arr_size_bounds (array_of 40 10) 4); evaluate.
Defined.

(** ** Constructors: what a fresh descriptor is *)

(** X5: whatever the storage held, the pointer constructor sets every member
    but [is_valid]: the two names from its arguments, sizes and offset 0,
    category [VOID], no pointer, little-endian, unsigned, element name
    [{none}]; the named and the no-args constructor do the same with the
    target [{none}] and the name [{unknown}].  The fresh descriptor is
    well-formed, [get_arr_size] returns -1 on it, and once [is_valid] is
    assigned it is the same descriptor for every storage and is printed
    with offset 0, type void, size 0 and the flags false, false, true,
    false. *)
Theorem constructed_descriptor (this this' : ReadableDataType)
    (ptr_name dst_name : string) (valid : bool) :
  ReadableDataType_pointer_ctor this ptr_name dst_name =
    {| name := ptr_name; size_bytes := 0; offset_bytes := 0; type := VOID;
       is_ptr := false; is_double_ptr := false; is_le := true;
       is_signed := false; is_valid := is_valid this;
       ptr_trgt_name := dst_name; arr_member_name := "{none}";
       arr_member_type := VOID; arr_member_size_bytes := 0 |}
  /\ ReadableDataType_named_ctor this ptr_name
     = ReadableDataType_pointer_ctor this ptr_name "{none}"
  /\ ReadableDataType_noargs_ctor this
     = ReadableDataType_pointer_ctor this "{unknown}" "{none}"
  /\ wf_ReadableDataType (ReadableDataType_pointer_ctor this ptr_name dst_name)
  /\ get_arr_size (ReadableDataType_pointer_ctor this ptr_name dst_name) = Returned (-1)
  /\ get_arr_size (ReadableDataType_named_ctor this ptr_name) = Returned (-1)
  /\ get_arr_size (ReadableDataType_noargs_ctor this) = Returned (-1)
  /\ set_is_valid (ReadableDataType_pointer_ctor this ptr_name dst_name) valid
     = set_is_valid (ReadableDataType_pointer_ctor this' ptr_name dst_name) valid
  /\ text_of_ReadableDataType
       (set_is_valid (ReadableDataType_pointer_ctor this ptr_name dst_name) valid)
     = "member '" +:+ ptr_name
       +:+ "' (offset: 0, type: void, size: 0, ptr: false, dptr: false, le: true, signed: false, valid: "
       +:+ bool_word valid +:+ ")".
Proof.
  do 3 (split; [reflexivity|]).
  split; [unfold wf_ReadableDataType, is_unsigned, UINT_MAX; simpl; lia|].
  repeat split.
Qed.

(** ** Output: strings *)

#[local] Arguments String.append !_ _ / : simpl nomatch.

Lemma append_assoc (a b c : string) : (a +:+ b) +:+ c = a +:+ (b +:+ c).
Proof. induction a as [|x a IH]; simpl; [reflexivity|]. f_equal. exact IH. Qed.

Lemma append_empty_r (a : string) : a +:+ "" = a.
Proof. induction a as [|x a IH]; simpl; [reflexivity|]. f_equal. exact IH. Qed.

Lemma append_inv_head (a b c : string) : a +:+ b = a +:+ c -> b = c.
Proof. induction a as [|x a IH]; simpl; [auto|]. intros [= H]. auto. Qed.

Lemma occurrences_append (c : ascii) (a b : string) :
  occurrences c (a +:+ b) = (occurrences c a + occurrences c b)%nat.
Proof. induction a as [|x a IH]; simpl; [reflexivity|]. rewrite IH. lia. Qed.

Lemma occurrences_here (c : ascii) (s : string) :
  occurrences c (String c s) = S (occurrences c s).
Proof. simpl. rewrite Ascii.eqb_refl. reflexivity. Qed.

(** Two texts that agree, each cut at the first occurrence of [c], agree
    before and after the cut. *)
Lemma cut_at_first (c : ascii) (l1 l2 r1 r2 : string) :
  l1 +:+ String c r1 = l2 +:+ String c r2 ->
  occurrences c l1 = 0%nat -> occurrences c l2 = 0%nat ->
  l1 = l2 /\ r1 = r2.
Proof.
  revert l2. induction l1 as [|x l1 IH]; intros [|y l2]; simpl.
  - intros [= ->]. auto.
  - intros [= <- _] _. rewrite Ascii.eqb_refl. discriminate.
  - intros [= -> _]. rewrite Ascii.eqb_refl. discriminate.
  - intros [= -> H] H1 H2.
    destruct (IH l2 H) as [-> ->]; [lia | lia | auto].
Qed.

(** The same for the cut at the last occurrence. *)
Lemma cut_at_last (c : ascii) (l1 l2 r1 r2 : string) :
  l1 +:+ String c r1 = l2 +:+ String c r2 ->
  occurrences c r1 = 0%nat -> occurrences c r2 = 0%nat ->
  l1 = l2 /\ r1 = r2.
Proof.
  revert l2. induction l1 as [|x l1 IH]; intros [|y l2]; simpl.
  - intros [= ->]. auto.
  - intros [= <- ->]. rewrite occurrences_append, occurrences_here. lia.
  - intros [= -> <-] _. rewrite occurrences_append, occurrences_here. lia.
  - intros [= -> H] H1 H2.
    destruct (IH l2 H H1 H2) as [-> ->]. auto.
Qed.

(** A character that is no digit does not occur among the digits of a
    number. *)
Lemma occurrences_decimal (c : ascii) (z : Z) :
  occurrences c "0123456789" = 0%nat -> occurrences c (decimal z) = 0%nat.
Proof.
  unfold decimal. simpl. intros H.
  destruct (Ascii.eqb c "0") eqn:E0; [discriminate|].
  destruct (Ascii.eqb c "1") eqn:E1; [discriminate|].
  destruct (Ascii.eqb c "2") eqn:E2; [discriminate|].
  destruct (Ascii.eqb c "3") eqn:E3; [discriminate|].
  destruct (Ascii.eqb c "4") eqn:E4; [discriminate|].
  destruct (Ascii.eqb c "5") eqn:E5; [discriminate|].
  destruct (Ascii.eqb c "6") eqn:E6; [discriminate|].
  destruct (Ascii.eqb c "7") eqn:E7; [discriminate|].
  destruct (Ascii.eqb c "8") eqn:E8; [discriminate|].
  destruct (Ascii.eqb c "9") eqn:E9; [discriminate|].
  induction (N.to_uint (Z.to_N z)) as [|d IH|d IH|d IH|d IH|d IH|d IH|d IH|d IH|d IH|d IH];
    simpl; rewrite ?E0, ?E1, ?E2, ?E3, ?E4, ?E5, ?E6, ?E7, ?E8, ?E9; auto.
Qed.

(** Numbers with the same digits are the same number. *)
Lemma decimal_inj (a b : Z) : 0 <= a -> 0 <= b -> decimal a = decimal b -> a = b.
Proof.
  unfold decimal. intros Ha Hb H.
  apply (f_equal NilEmpty.uint_of_string) in H.
  rewrite !NilEmpty.usu in H. injection H as H.
  apply Unsigned.to_uint_inj in H. apply Z2N.inj; assumption.
Qed.

Lemma occurrences_bool_word (c : ascii) (b : bool) :
  occurrences c "truefals" = 0%nat -> occurrences c (bool_word b) = 0%nat.
Proof.
  simpl. intros H.
  destruct (Ascii.eqb c "t") eqn:Et; [discriminate|].
  destruct (Ascii.eqb c "r") eqn:Er; [discriminate|].
  destruct (Ascii.eqb c "u") eqn:Eu; [discriminate|].
  destruct (Ascii.eqb c "e") eqn:Ee; [discriminate|].
  destruct (Ascii.eqb c "f") eqn:Ef; [discriminate|].
  destruct (Ascii.eqb c "a") eqn:Ea; [discriminate|].
  destruct (Ascii.eqb c "l") eqn:El; [discriminate|].
  destruct (Ascii.eqb c "s") eqn:Es; [discriminate|].
  destruct b; simpl; rewrite ?Et, ?Er, ?Eu, ?Ee, ?Ef, ?Ea, ?El, ?Es; reflexivity.
Qed.

Lemma bool_word_inj (a b : bool) : bool_word a = bool_word b -> a = b.
Proof. destruct a, b; simpl; congruence. Qed.

(** The name of an enumerator is the name of no other value. *)
Lemma DataType_name_inj (t1 t2 : DataType) :
  t1 ∈ DataType_all -> DataType_name t1 = DataType_name t2 -> t1 = t2.
Proof.
  intros H1%DataType_all_named.
  destruct t1 as [| | | | | | | | | |[]], t2 as [| | | | | | | | | |[]];
    simpl in *; intros H; first [reflexivity | discriminate H | lia].
Qed.

Lemma type_string_DataType_value (t : DataType) :
  type_string (DataType_value t) = DataType_name t.
Proof. destruct t as [| | | | | | | | | |[]]; reflexivity. Qed.

(** ** Output: the name of a category *)

(** X6: the [switch] of [operator<<] never takes its [default] branch for an
    enumerator and takes it for every other value; the ten names it prints
    tell the categories apart, and each is the string the loader compares
    JSON values with for that category. *)
Theorem type_string_enumerators :
  (forall t : DataType, type_string (DataType_value t) = DataType_name t)
  /\ (forall v : Z,
        type_string v = "{unknown}" <->
        forall t, t ∈ DataType_all -> DataType_value t <> v)
  /\ (forall t1 t2 : DataType,
        t1 ∈ DataType_all -> DataType_name t1 = DataType_name t2 -> t1 = t2)
  /\ map DataType_name DataType_all =
       [void_str; bool_str; char_str; int_str; float_str; struct_str;
        func_str; array_str; union_str; enum_str].
Proof.
  split; [exact type_string_DataType_value|].
  split; [|split; [exact DataType_name_inj | reflexivity]].
  intros v. unfold type_string. split.
  - repeat match goal with
           | |- context [v =? ?k] => destruct (Z.eqb_spec v k); [discriminate|]
           end.
    intros _ t Ht%DataType_all_named.
    destruct t as [| | | | | | | | | |[]]; simpl in *; lia.
  - intros Hv.
    repeat match goal with
           | |- context [v =? DataType_value ?t] =>
               destruct (Z.eqb_spec v (DataType_value t)) as [Heq|_];
               [destruct (Hv t); [apply DataType_all_named; simpl; lia
                                 | symmetry; exact Heq]|]
           end.
    reflexivity.
Qed.

Lemma DataType_name_plain (t : DataType) :
  occurrences "," (DataType_name t) = 0%nat
  /\ occurrences "'" (DataType_name t) = 0%nat
  /\ occurrences LF (DataType_name t) = 0%nat.
Proof. destruct t as [| | | | | | | | | |[]]; repeat split. Qed.

(** ** Output: a descriptor *)

(** One step of output on a stream whose two fields are at hand. *)
Lemma put_string_eq (s w : string) (f : bool) :
  put_string s {| written := w; boolalpha := f |}
  = {| written := w +:+ s; boolalpha := f |}.
Proof. reflexivity. Qed.

Lemma put_unsigned_eq (z : Z) (w : string) (f : bool) :
  put_unsigned z {| written := w; boolalpha := f |}
  = {| written := w +:+ decimal z; boolalpha := f |}.
Proof. reflexivity. Qed.

Lemma put_bool_eq (b : bool) (w : string) :
  put_bool b {| written := w; boolalpha := true |}
  = {| written := w +:+ bool_word b; boolalpha := true |}.
Proof. reflexivity. Qed.

Lemma endl_eq (w : string) (f : bool) :
  endl {| written := w; boolalpha := f |}
  = {| written := w +:+ String LF ""; boolalpha := f |}.
Proof. reflexivity. Qed.

Ltac step_output :=
  repeat first [ rewrite put_string_eq | rewrite put_unsigned_eq
               | rewrite put_bool_eq | rewrite endl_eq ].

Lemma print_ReadableDataType_eq (os : ostream) (rdt : ReadableDataType) :
  print_ReadableDataType os rdt =
    {| written := written os +:+ text_of_ReadableDataType rdt; boolalpha := true |}.
Proof.
  unfold print_ReadableDataType, set_boolalpha. cbv zeta.
  step_output. rewrite type_string_DataType_value.
  unfold text_of_ReadableDataType. rewrite !append_assoc. reflexivity.
Qed.

(** X7: printing a descriptor keeps what the stream held, appends the text
    of the descriptor, which is the same whatever format flag the stream
    had, and leaves [boolalpha] set: a [bool] the caller prints next comes
    out as a word. *)
Theorem print_ReadableDataType_effect (os : ostream) (rdt : ReadableDataType) (b : bool) :
  print_ReadableDataType os rdt =
    {| written := written os +:+ text_of_ReadableDataType rdt; boolalpha := true |}
  /\ written (put_bool b (print_ReadableDataType os rdt)) =
     written os +:+ text_of_ReadableDataType rdt +:+ bool_word b.
Proof.
  split; [apply print_ReadableDataType_eq|].
  rewrite print_ReadableDataType_eq, put_bool_eq. cbn [written].
  rewrite append_assoc. reflexivity.
Qed.

(** Settles that a character does not occur in a piece of printed text. *)
Ltac no_occurrence :=
  repeat first
    [ reflexivity
    | rewrite occurrences_append
    | rewrite occurrences_decimal by reflexivity
    | rewrite occurrences_bool_word by reflexivity
    | rewrite (proj1 (DataType_name_plain _))
    | rewrite (proj1 (proj2 (DataType_name_plain _)))
    | rewrite (proj2 (proj2 (DataType_name_plain _)))
    | progress simpl ].

(** X8: two well-formed descriptors are printed as the same text exactly
    when they agree on the eight fields that are printed (name, offset,
    size and the five flags) and on the printed name of their category.  No
    choice of name can make one descriptor pass for another; when the
    category of one of them is an enumerator, equal texts give equal
    categories, while the unnamed categories are all printed alike. *)
Theorem text_of_ReadableDataType_inj (r1 r2 : ReadableDataType) :
  wf_ReadableDataType r1 -> wf_ReadableDataType r2 ->
  (text_of_ReadableDataType r1 = text_of_ReadableDataType r2 <->
   printed_fields r1 = printed_fields r2)
  /\ (type r1 ∈ DataType_all ->
      text_of_ReadableDataType r1 = text_of_ReadableDataType r2 ->
      type r1 = type r2)
  /\ (type r1 ∉ DataType_all -> type r2 ∉ DataType_all ->
      DataType_name (type r1) = DataType_name (type r2)).
Proof.
  intros (Hs1 & Ho1 & _) (Hs2 & Ho2 & _). unfold is_unsigned in *.
  assert (Hfields : text_of_ReadableDataType r1 = text_of_ReadableDataType r2 ->
                    printed_fields r1 = printed_fields r2).
  { unfold text_of_ReadableDataType, printed_fields. intros H.
    simpl in H. repeat injection H as H.
    apply cut_at_last in H as [Hname H]; [|no_occurrence..].
    repeat injection H as H.
    apply cut_at_first in H as [Hoff H]; [|no_occurrence..].
    apply decimal_inj in Hoff; [|lia..].
    repeat injection H as H.
    apply cut_at_first in H as [Htype H]; [|no_occurrence..].
    repeat injection H as H.
    apply cut_at_first in H as [Hsize H]; [|no_occurrence..].
    apply decimal_inj in Hsize; [|lia..].
    repeat injection H as H.
    apply cut_at_first in H as [Hptr H]; [|no_occurrence..].
    apply bool_word_inj in Hptr.
    repeat injection H as H.
    apply cut_at_first in H as [Hdptr H]; [|no_occurrence..].
    apply bool_word_inj in Hdptr.
    repeat injection H as H.
    apply cut_at_first in H as [Hle H]; [|no_occurrence..].
    apply bool_word_inj in Hle.
    repeat injection H as H.
    apply cut_at_first in H as [Hsigned H]; [|no_occurrence..].
    apply bool_word_inj in Hsigned.
    repeat injection H as H.
    apply cut_at_first in H as [Hvalid _]; [|no_occurrence..].
    apply bool_word_inj in Hvalid.
    congruence. }
  split; [split; [exact Hfields|]|split].
  - unfold text_of_ReadableDataType, printed_fields.
    intros [= -> -> -> -> -> -> -> -> ->]. reflexivity.
  - intros Hnamed Htext. apply Hfields in Htext.
    unfold printed_fields in Htext. injection Htext as _ _ Hname _ _ _ _ _ _.
    apply DataType_name_inj; assumption.
  - rewrite !DataType_all_named.
    destruct (type r1) as [| | | | | | | | | |[]], (type r2) as [| | | | | | | | | |[]];
      simpl; intros H1 H2; first [reflexivity | lia].
Qed.

(** Two pointers that differ in their target only are printed alike. *)
Lemma text_of_ReadableDataType_inj_witness :
  (text_of_ReadableDataType (pointer_of 8 "Task")
     = text_of_ReadableDataType (pointer_of 8 "Other")
   <-> printed_fields (pointer_of 8 "Task") = printed_fields (pointer_of 8 "Other"))
  /\ (type (pointer_of 8 "Task") ∈ DataType_all ->
      text_of_ReadableDataType (pointer_of 8 "Task")
        = text_of_ReadableDataType (pointer_of 8 "Other") ->
      type (pointer_of 8 "Task") = type (pointer_of 8 "Other"))
  /\ (type (pointer_of 8 "Task") ∉ DataType_all ->
      type (pointer_of 8 "Other") ∉ DataType_all ->
      DataType_name (type (pointer_of 8 "Task"))
        = DataType_name (type (pointer_of 8 "Other"))).
Proof.
  apply (text_of_ReadableDataType_inj (pointer_of 8 "Task") (pointer_of 8 "Other"));
    evaluate.
Defined.

(** Two descriptors whose categories are different unnamed values are
    printed alike. *)
Example unnamed_categories_print_alike :
  type (scalar_of (UNNAMED U10) 4 false true) <> type (scalar_of (UNNAMED U11) 4 false true)
  /\ text_of_ReadableDataType (scalar_of (UNNAMED U10) 4 false true)
     = text_of_ReadableDataType (scalar_of (UNNAMED U11) 4 false true).
Proof. split; [discriminate | reflexivity]. Qed.

(** ** Output: a struct *)

Lemma occurrences_LF_text (rdt : ReadableDataType) :
  occurrences LF (text_of_ReadableDataType rdt) = occurrences LF (name rdt).
Proof.
  unfold text_of_ReadableDataType.
  rewrite !occurrences_append.
  rewrite !occurrences_decimal, !occurrences_bool_word by reflexivity.
  rewrite (proj2 (proj2 (DataType_name_plain _))). simpl. lia.
Qed.

Lemma occurrences_LF_lines (members : list ReadableDataType) :
  Forall (fun m => occurrences LF (name m) = 0%nat) members ->
  occurrences LF (lines_of_members members) = length members.
Proof.
  induction 1 as [|m members Hm _ IH]; [reflexivity|].
  cbn [lines_of_members length]. unfold line_of_member.
  rewrite occurrences_append. cbn [occurrences].
  rewrite occurrences_append, occurrences_LF_text, Hm, IH. simpl. lia.
Qed.

Lemma print_members_eq (members : list ReadableDataType) (os : ostream) :
  foldl (fun os member =>
           os <<< put_string (String TAB "")
              <<< (fun os => print_ReadableDataType os member)
              <<< endl)
        os members
  = {| written := written os +:+ lines_of_members members;
       boolalpha := match members with [] => boolalpha os | _ => true end |}.
Proof.
  revert os. induction members as [|m members IH]; intros os.
  - simpl. rewrite append_empty_r. destruct os; reflexivity.
  - cbn [foldl]. rewrite IH. destruct os as [w f].
    rewrite put_string_eq, print_ReadableDataType_eq, endl_eq.
    unfold line_of_member. cbn [written boolalpha lines_of_members].
    f_equal.
    + rewrite !append_assoc. simpl. rewrite !append_assoc. reflexivity.
    + destruct members; reflexivity.
Qed.

Lemma print_StructDef_eq (os : ostream) (sd : StructDef.t) :
  print_StructDef os sd =
    {| written := written os +:+ header_of_StructDef sd
                  +:+ lines_of_members (StructDef.members sd);
       boolalpha := match StructDef.members sd with
                    | [] => boolalpha os
                    | _ => true
                    end |}.
Proof.
  unfold print_StructDef. cbv zeta. rewrite print_members_eq.
  destruct os as [w f]. step_output.
  unfold header_of_StructDef. cbn [written boolalpha].
  rewrite !append_assoc. reflexivity.
Qed.

(** X9: printing a struct keeps what the stream held and appends the header
    line followed by one line per member, in the order of the members, each
    a tab, the text of the member and a newline; a struct without members
    prints as its header line alone and leaves the format flags as they
    were, a struct with members leaves [boolalpha] set. *)
Theorem print_StructDef_effect (os : ostream) (sd : StructDef.t) :
  written (print_StructDef os sd) =
    written os +:+ header_of_StructDef sd +:+ lines_of_members (StructDef.members sd)
  /\ (StructDef.members sd = [] ->
      print_StructDef os sd = put_string (header_of_StructDef sd) os)
  /\ (StructDef.members sd <> [] -> boolalpha (print_StructDef os sd) = true).
Proof.
  rewrite print_StructDef_eq. cbn [written boolalpha]. split; [reflexivity|].
  split.
  - intros ->. unfold put_string. cbn [lines_of_members].
    rewrite append_empty_r. reflexivity.
  - destruct (StructDef.members sd); [contradiction|reflexivity].
Qed.

(** X10: when no name in it contains a newline, a printed struct takes one
    line more than it has members: the header line, which states the number
    of members, and a line for each of them. *)
Theorem print_StructDef_line_count (os : ostream) (sd : StructDef.t) :
  occurrences LF (StructDef.name sd) = 0%nat ->
  Forall (fun m => occurrences LF (name m) = 0%nat) (StructDef.members sd) ->
  occurrences LF (written (print_StructDef os sd)) =
    (occurrences LF (written os) + 1 + length (StructDef.members sd))%nat.
Proof.
  intros Hname Hmembers.
  rewrite print_StructDef_eq. cbn [written].
  rewrite !occurrences_append, occurrences_LF_lines by assumption.
  unfold header_of_StructDef.
  rewrite !occurrences_append, !occurrences_decimal by reflexivity.
  rewrite Hname. simpl. lia.
Qed.

Lemma print_StructDef_line_count_witness :
  occurrences LF (written (print_StructDef {| written := ""; boolalpha := false |} packet_def))
  = (occurrences LF "" + 1 + length (StructDef.members packet_def))%nat.
Proof.
  apply (print_StructDef_line_count {| written := ""; boolalpha := false |} packet_def).
  - reflexivity.
  - unfold packet_def. simpl. repeat constructor.
Defined.
